(** * DBUtil: version probing, table auditing and database backup

    A shallow embedding of [mythtv/libs/libmythbase/dbutil.cpp] and the
    properties its specification states about it.

    Conventions of the embedding:
    - a [QString] is a [string]; the null and the empty [QString] compare
      equal in Qt and are both the empty string here;
    - a C++ [int] is a [Z] in the range [INT_MIN .. INT_MAX];
    - the database connection, the settings store, the clock, the file
      system and external processes are not part of the file: what they
      answer is an explicit input of each function, what the code does to
      them is recorded in an explicit [World]. *)

From stdpp Require Import base list strings gmap pretty.
From Stdlib Require Import ZArith Lia Ascii String.

Local Open Scope string_scope.
Local Open Scope list_scope.

(** ** Strings *)

(** [QString::toLower] restricted to the ASCII letters. *)
Definition toLower_char (c : ascii) : ascii :=
  let n := nat_of_ascii c in
  if (65 <=? n)%nat && (n <=? 90)%nat then ascii_of_nat (n + 32) else c.

Fixpoint toLower_ascii (s : string) : string :=
  match s with
  | EmptyString => EmptyString
  | String c s' => String (toLower_char c) (toLower_ascii s')
  end.

(** ** Status reduction of CHECK TABLE / REPAIR TABLE rows *)

(** One record of the result set: columns Table, Msg_type and Msg_text. *)
Record Row := mkRow { Table : string; Msg_type : string; Msg_text : string }.

(** The locals of [DBUtil::CheckRepairStatus] that live across iterations. *)
Record CRState := mkCRState {
  tables : list string;
  table : string;
  previous_table : string;
  ok : bool
}.

Section CheckRepair.

(** [QString::toLower] is Qt's; the reduction only needs it as a function. *)
Variable toLower : string -> string.

(** The [if]/[else if] that ends the loop body. *)
Definition row_verdict (ok : bool) (type text : string) : bool :=
  if String.eqb "status" (toLower type) && String.eqb "ok" (toLower text)
  then true
  else if String.eqb "error" (toLower type)
          || (String.eqb "status" (toLower type)
              && negb (String.eqb "ok" (toLower text)))
  then false
  else ok.

(** The [if (table != previous_table)] block that opens the loop body. *)
Definition on_table_change (st : CRState) (r : Row) : CRState :=
  let table := Table r in
  if negb (String.eqb table (previous_table st)) then
    if negb (ok st) then
      mkCRState (tables st ++ [previous_table st]) table table true
    else
      mkCRState (tables st) table table (ok st)
  else
    mkCRState (tables st) table (previous_table st) (ok st).

Definition apply_row (st : CRState) (r : Row) : CRState :=
  mkCRState (tables st) (table st) (previous_table st)
            (row_verdict (ok st) (Msg_type r) (Msg_text r)).

Definition loop_body (st : CRState) (r : Row) : CRState :=
  apply_row (on_table_change st r) r.

Definition CR_init : CRState := mkCRState [] "" "" true.

Definition CR_finish (st : CRState) : list string :=
  if negb (ok st) then tables st ++ [table st] else tables st.

(** [query.next()] walks the rows in order. *)
Definition CheckRepairStatus (rows : list Row) : list string :=
  CR_finish (fold_left loop_body rows CR_init).

(** *** The reduction as the specification words it *)

Definition is_error (r : Row) : bool := String.eqb (toLower (Msg_type r)) "error".
Definition is_status (r : Row) : bool := String.eqb (toLower (Msg_type r)) "status".
Definition text_is_OK (r : Row) : bool := String.eqb (toLower (Msg_text r)) "ok".

(** An error row marks the table not-OK; a status row makes it OK when its
    text is OK and not-OK otherwise; any other row leaves the verdict. *)
Definition running_verdict (v : bool) (r : Row) : bool :=
  if is_error r then false
  else if is_status r then text_is_OK r
  else v.

(** The verdict of table [t]: start from OK, apply the rows of [t] in order. *)
Definition table_verdict (t : string) (rows : list Row) : bool :=
  fold_left (fun v r => if String.eqb (Table r) t then running_verdict v r else v)
            rows true.

(** The table names of a result set, in order of first appearance. *)
Definition table_names (rows : list Row) : list string :=
  fold_left (fun acc r => if bool_decide (Table r ∈ acc) then acc else acc ++ [Table r])
            rows [].

Definition bad_tables (rows : list Row) : list string :=
  filter (fun t => table_verdict t rows = false) (table_names rows).

(** A row that bears on the verdict, and one that leaves its table not-OK. *)
Definition applicable (r : Row) : bool := is_error r || is_status r.
Definition leaves_not_OK (r : Row) : bool :=
  is_error r || (is_status r && negb (text_is_OK r)).

(** The last row of table [t] that bears on its verdict. *)
Definition final_applicable (t : string) (rows : list Row) : option Row :=
  last (filter (fun r => Table r = t /\ applicable r = true) rows).

(** The rows of one table are contiguous: between two rows of a table
    there are only rows of that table. *)
Definition contiguous (rows : list Row) : Prop :=
  forall i j k ri rj rk,
    (i <= j <= k)%nat ->
    rows !! i = Some ri -> rows !! j = Some rj -> rows !! k = Some rk ->
    Table ri = Table rk -> Table rj = Table ri.

End CheckRepair.

(** ** Version probing *)

Definition INT_MAX : Z := 2147483647.
Definition INT_MIN : Z := -2147483648.

(** [const int DBUtil::kUnknownVersionNumber = INT_MIN;] *)
Definition kUnknownVersionNumber : Z := INT_MIN.

(** Two's-complement wrap-around of a mathematical integer into [int]. *)
Definition wrap_int (z : Z) : Z := ((z - INT_MIN) mod 2 ^ 32 + INT_MIN)%Z.

(** [a - b] on [int]. *)
Definition int_sub (a b : Z) : Z := wrap_int (a - b).

Definition in_int (z : Z) : Prop := (INT_MIN <= z <= INT_MAX)%Z.

(** The members of [DBUtil]. *)
Record DBUtil := mkDBUtil {
  m_versionString : string;
  m_versionMajor : Z;
  m_versionMinor : Z;
  m_versionPoint : Z
}.

(** The three components are [int]s. *)
Definition DBUtil_ints (d : DBUtil) : Prop :=
  in_int (m_versionMajor d) /\ in_int (m_versionMinor d) /\ in_int (m_versionPoint d).

(** [DBUtil::DBUtil(void)] *)
Definition DBUtil_new : DBUtil := mkDBUtil "" (-1) (-1) (-1).

(** What the outside answers to a version probe: the setting
    DBMSVersionOverride (empty when unset) and the row of SELECT VERSION(),
    [None] when [exec()] or [next()] fails. *)
Record Server := mkServer {
  DBMSVersionOverride : string;
  select_version : option string
}.

Definition isEmpty (s : string) : bool := String.eqb s "".

Definition QueryDBMSVersion (srv : Server) (d : DBUtil) : bool * DBUtil :=
  let dbmsVersion := DBMSVersionOverride srv in
  let dbmsVersion :=
    if isEmpty dbmsVersion then
      match select_version srv with
      | None => ""
      | Some v => v
      end
    else dbmsVersion in
  let d := mkDBUtil dbmsVersion (m_versionMajor d) (m_versionMinor d) (m_versionPoint d) in
  (negb (isEmpty (m_versionString d)), d).

Definition GetDBMSVersion (srv : Server) (d : DBUtil) : string * DBUtil :=
  let d := if isEmpty (m_versionString d) then snd (QueryDBMSVersion srv d) else d in
  (m_versionString d, d).

(** *** The regular expression [(\d+)] *)

Definition is_digit (c : ascii) : bool :=
  let n := nat_of_ascii c in (48 <=? n)%nat && (n <=? 57)%nat.

Fixpoint string_drop (n : nat) (s : string) : string :=
  match n, s with
  | O, _ => s
  | S n', EmptyString => EmptyString
  | S n', String _ s' => string_drop n' s'
  end.

(** The longest run of digits at the head of [s]: what the greedy [\d+]
    takes once it matches at the head. *)
Fixpoint digit_run (s : string) : string :=
  match s with
  | EmptyString => EmptyString
  | String c s' => if is_digit c then String c (digit_run s') else EmptyString
  end.

(** Number of characters before the first digit of [s]. *)
Fixpoint first_digit (s : string) : option nat :=
  match s with
  | EmptyString => None
  | String c s' => if is_digit c then Some O else S <$> first_digit s'
  end.

(** [digits.indexIn(str, offset)] with [cap(1)]: the position of the first
    match at or after [offset] and the text it captured, position -1 when
    there is none. [matchedLength()] is the length of the capture. *)
Definition indexIn (str : string) (offset : Z) : Z * string :=
  match first_digit (string_drop (Z.to_nat offset) str) with
  | None => ((-1)%Z, "")
  | Some k =>
      let p := (offset + Z.of_nat k)%Z in
      (p, digit_run (string_drop (Z.to_nat p) str))
  end.

Definition digit_value (c : ascii) : Z := (Z.of_nat (nat_of_ascii c) - 48)%Z.

Fixpoint decimal_from (acc : Z) (s : string) : Z :=
  match s with
  | EmptyString => acc
  | String c s' => decimal_from (acc * 10 + digit_value c)%Z s'
  end.

Definition decimal_value (s : string) : Z := decimal_from 0 s.

Fixpoint all_digits (s : string) : bool :=
  match s with
  | EmptyString => true
  | String c s' => is_digit c && all_digits s'
  end.

(** [section.toInt(&ok, 10)] on a capture of [(\d+)], a non-empty string of
    digits: the number when it fits an [int], otherwise 0 with [ok] false.
    (Signs and blanks, which Qt also reads, never occur in a capture; other
    strings are answered as a failed conversion.) *)
Definition toInt (s : string) : Z * bool :=
  if negb (isEmpty s) && all_digits s && (decimal_value s <=? INT_MAX)%Z
  then (decimal_value s, true)
  else (0%Z, false).

(** The [while] loop of [ParseDBMSVersion]; [n] bounds the iterations left,
    which the test [i < 3] bounds by 3. *)
Fixpoint parse_loop (n : nat) (str : string) (pos i : Z) (version : list Z) : list Z :=
  match n with
  | O => version
  | S n' =>
      if (i <? 3)%Z then
        let '(p, cap) := indexIn str pos in
        if (p >? -1)%Z then
          let section := cap in
          let pos := (p + Z.of_nat (String.length cap))%Z in
          let '(v, ok) := toInt section in
          let version := <[Z.to_nat i := v]> version in
          let version := if negb ok then <[Z.to_nat i := (-1)%Z]> version else version in
          parse_loop n' str pos (i + 1)%Z version
        else version
      else version
  end.

(** The part of [ParseDBMSVersion] after the version string is known. *)
Definition parse_version_string (d : DBUtil) : bool * DBUtil :=
  let version := parse_loop 3 (m_versionString d) 0 0 [(-1)%Z; (-1)%Z; (-1)%Z] in
  let d := mkDBUtil (m_versionString d)
                    (version !!! 0%nat) (version !!! 1%nat) (version !!! 2%nat) in
  ((m_versionMajor d >? -1)%Z, d).

Definition ParseDBMSVersion (srv : Server) (d : DBUtil) : bool * DBUtil :=
  if isEmpty (m_versionString d) then
    let '(r, d) := QueryDBMSVersion srv d in
    if negb r then (false, d) else parse_version_string d
  else parse_version_string d.

(** The [for] loop of [CompareDBMSVersion]. *)
Fixpoint compare_loop (n : nat) (i result : Z) (version compareto : list Z) : Z :=
  match n with
  | O => result
  | S n' =>
      if (i <? 3)%Z && (result =? 0)%Z then
        let vi := version !!! Z.to_nat i in
        let ci := compareto !!! Z.to_nat i in
        let result :=
          if (vi >? -1)%Z || negb (ci =? 0)%Z then int_sub vi ci else result in
        compare_loop n' (i + 1)%Z result version compareto
      else result
  end.

Definition compare_versions (d : DBUtil) (major minor point : Z) : Z :=
  let result := 0%Z in
  let version := [m_versionMajor d; m_versionMinor d; m_versionPoint d] in
  let compareto := [major; minor; point] in
  compare_loop 3 0 result version compareto.

Definition CompareDBMSVersion (srv : Server) (major minor point : Z) (d : DBUtil)
  : Z * DBUtil :=
  if (m_versionMajor d <? 0)%Z then
    let '(r, d) := ParseDBMSVersion srv d in
    if negb r then (kUnknownVersionNumber, d)
    else (compare_versions d major minor point, d)
  else (compare_versions d major minor point, d).

(** The states a [DBUtil] object goes through: constructed, then any
    sequence of version calls, each against whatever the server answers at
    that time. *)
Inductive reachable : DBUtil -> Prop :=
| reach_new : reachable DBUtil_new
| reach_GetDBMSVersion srv d :
    reachable d -> reachable (snd (GetDBMSVersion srv d))
| reach_ParseDBMSVersion srv d :
    reachable d -> reachable (snd (ParseDBMSVersion srv d))
| reach_CompareDBMSVersion srv major minor point d :
    reachable d -> reachable (snd (CompareDBMSVersion srv major minor point d)).

(** *** Parsing as the specification words it *)

(** The groups of consecutive digits of [s], left to right. *)
Fixpoint digit_groups_from (cur : string) (s : string) : list string :=
  match s with
  | EmptyString => if isEmpty cur then [] else [cur]
  | String c s' =>
      if is_digit c then digit_groups_from (cur +:+ String c "") s'
      else if isEmpty cur then digit_groups_from "" s'
      else cur :: digit_groups_from "" s'
  end.

Definition digit_groups (s : string) : list string := digit_groups_from "" s.

(** A component is unknown when it is below zero; parsing writes -1. *)
Definition Unknown : Z := (-1)%Z.
Definition is_unknown (v : Z) : bool := negb (v >? -1)%Z.

(** One group as a component: its number, or Unknown when the number does
    not fit. *)
Definition component_of_group (g : string) : Z :=
  if (decimal_value g <=? INT_MAX)%Z then decimal_value g else Unknown.

(** Component [i] of a version string: group [i], Unknown without one. *)
Definition component (s : string) (i : nat) : Z :=
  match digit_groups s !! i with
  | Some g => component_of_group g
  | None => Unknown
  end.

(** The three components are those of one pass over the stored string. *)
Definition same_pass (d : DBUtil) : Prop :=
  let s := m_versionString d in
  m_versionMajor d = component s 0 /\ m_versionMinor d = component s 1
  /\ m_versionPoint d = component s 2.

Definition all_unknown (d : DBUtil) : Prop :=
  m_versionMajor d = Unknown /\ m_versionMinor d = Unknown
  /\ m_versionPoint d = Unknown.

(** The first [n] groups written as components from index [i] on. *)
Fixpoint fill_components (n : nat) (groups : list string) (i : Z) (version : list Z)
  : list Z :=
  match n, groups with
  | S n', g :: groups' =>
      if (i <? 3)%Z then
        fill_components n' groups' (i + 1)%Z (<[Z.to_nat i := component_of_group g]> version)
      else version
  | _, _ => version
  end.

(** The comparison: components in order, one skipped when the probed value
    is unknown and the requested one is 0, the first difference decides. *)
Fixpoint walk_components (pairs : list (Z * Z)) : Z :=
  match pairs with
  | [] => 0%Z
  | (v, c) :: rest =>
      if is_unknown v && (c =? 0)%Z then walk_components rest
      else if (v =? c)%Z then walk_components rest
      else int_sub v c
  end.

(** ** Empty store and the backup-in-progress heuristic *)

Definition endsWith (s suffix : string) : bool :=
  let n := String.length s in
  let m := String.length suffix in
  (m <=? n)%nat && String.eqb (string_drop (n - m) s) suffix.

(** [DBUtil::IsNewDatabase], on the answer of [GetTables()]. [tables.at(0)]
    is only evaluated when [size == 1]. *)
Definition IsNewDatabase (tables : list string) : bool :=
  let size := List.length tables in
  ((size =? 1)%nat && endsWith (tables !!! 0%nat) ".`schemalock`")
  || (size =? 0)%nat.

(** [a.secsTo(b)], times in seconds. *)
Definition secsTo (a b : Z) : Z := (b - a)%Z.

(** [DBUtil::IsBackupInProgress]. The settings BackupDBLastRunStart and
    BackupDBLastRunEnd are decoded at the boundary: [None] for an empty
    setting, [Some t] for one that reads as the time [t]; [now] is
    [QDateTime::currentDateTime()]. *)
Definition IsBackupInProgress (now : Z) (backupStartTime backupEndTime : option Z) : bool :=
  match backupStartTime with
  | None => false
  | Some backupStartTime =>
      match backupEndTime with
      | None =>
          if (secsTo backupStartTime now <? 600)%Z then true else false
      | Some backupEndTime =>
          if (backupEndTime >=? backupStartTime)%Z then false
          else if (secsTo backupStartTime now >? 600)%Z then false
          else true
      end
  end.

(** The heuristic as the specification words it. *)
Definition in_progress_spec (now : Z) (start_time end_time : option Z) : bool :=
  match start_time, end_time with
  | None, _ => false
  | Some s, None => bool_decide (now - s < 600)%Z
  | Some s, Some e =>
      if bool_decide (e >= s)%Z then false else bool_decide (now - s < 600)%Z
  end.

(** ** Database backup *)

(** The outcomes [BackupDB] returns. *)
Inductive MythDBBackupStatus :=
| kDB_Backup_Failed
| kDB_Backup_Completed
| kDB_Backup_Empty_DB
| kDB_Backup_Disabled.

(** Modelled from the spec: [exitcodes.h] is not among the sources; the
    specification takes exit status zero of an external process as success. *)
Definition GENERIC_EXIT_OK : Z := 0%Z.

Record DatabaseParams := mkDatabaseParams {
  dbHostName : string;
  dbPort : Z;
  dbUserName : string;
  dbPassword : string;
  dbName : string
}.

(** What the code does to the outside, in order. *)
Inductive Event :=
| EvSaveSetting (key value : string)
| EvCreateTemp (path content : string)
| EvSystem (command : string) (status : Z)
| EvUnlink (path : string)
| EvExec (sql : string).

(** The settings store, the staged temporary files with their content, and
    the history of effects. *)
Record World := mkWorld {
  settings : gmap string string;
  tmp_files : gmap string string;
  trace : list Event
}.

(** What the outside answers. The clock, the temporary-file service, the
    processes and the directory listing may answer differently as the run
    goes on: they are asked with the history so far. *)
Record Env := mkEnv {
  USING_MINGW : bool;
  GetNumSetting : string -> Z -> Z;
  GetTables : list string;
  GetShareDir : string;
  QFile_exists : string -> bool;
  GetDatabaseParams : DatabaseParams;
  GetBackupDirectory : string;
  currentDateTime : list Event -> string -> string;
  createTempFile : list Event -> string -> string;
  fopen_w : list Event -> string -> bool;
  myth_system : list Event -> string -> Z;
  QDir_entries : list Event -> string -> string -> list string;
  isConnected : bool
}.

(** A small state monad over the world. *)
Definition M (A : Type) : Type := World -> A * World.

#[global] Instance M_ret : MRet M := fun A a w => (a, w).
#[global] Instance M_bind : MBind M :=
  fun A B k m w => let '(a, w') := m w in k a w'.

Definition get_world : M World := fun w => (w, w).
Definition emit (e : Event) : M unit :=
  fun w => (tt, mkWorld (settings w) (tmp_files w) (trace w ++ [e])).

(** [gCoreContext->GetSetting(key, defaultval)] *)
Definition GetSetting (key defaultval : string) : M string :=
  fun w => (default defaultval (settings w !! key), w).

(** [gCoreContext->SaveSettingOnHost(key, value, NULL)] *)
Definition SaveSettingOnHost (key value : string) : M unit :=
  fun w => (tt, mkWorld (<[key := value]> (settings w)) (tmp_files w)
                        (trace w ++ [EvSaveSetting key value])).

(** A temporary file created, made owner-read-only, written and closed. *)
Definition stage (path content : string) : M unit :=
  fun w => (tt, mkWorld (settings w) (<[path := content]> (tmp_files w))
                        (trace w ++ [EvCreateTemp path content])).

Definition unlink (path : string) : M unit :=
  fun w => (tt, mkWorld (settings w) (delete path (tmp_files w))
                        (trace w ++ [EvUnlink path])).

Definition run_system (env : Env) (command : string) : M Z :=
  fun w => let status := myth_system env (trace w) command in
           (status, mkWorld (settings w) (tmp_files w)
                            (trace w ++ [EvSystem command status])).

Definition exec (sql : string) : M unit := emit (EvExec sql).

Definition now_string (env : Env) (format : string) : M string :=
  fun w => (currentDateTime env (trace w) format, w).

(** [DBUtil::CreateBackupFilename] *)
Definition CreateBackupFilename (env : Env) (prefix extension : string) : M string :=
  time ← now_string env "yyyyMMddhhmmss";
  mret (prefix +:+ "-" +:+ time +:+ extension).

(** [DBUtil::CreateTemporaryDBConf]: the result and the out-parameter
    [filename]. *)
Definition CreateTemporaryDBConf (env : Env) (privateinfo : string) : M (bool * string) :=
  w ← get_world;
  let filename := createTempFile env (trace w) "/tmp/mythtv_db_backup_conf_XXXXXX" in
  if negb (fopen_w env (trace w) filename) then
    mret (false, "")
  else
    _ ← stage filename privateinfo;
    mret (true, filename).

(** A line feed. *)
Definition nl : string := String "010"%char "".

(** [haystack.contains(needle, Qt::CaseInsensitive)] on ASCII text. *)
Fixpoint contains (needle haystack : string) : bool :=
  String.prefix needle haystack
  || match haystack with
     | EmptyString => false
     | String _ rest => contains needle rest
     end.

Definition contains_ci (needle haystack : string) : bool :=
  contains (toLower_ascii needle) (toLower_ascii haystack).

(** [DBUtil::DoBackup(const QString &backupScript, QString &filename)]:
    the result and the new value of [filename]. The [%n] markers of
    [QString::arg] are written as concatenation. *)
Definition DoBackup_script (env : Env) (backupScript : string) (filename : string)
  : M (bool * string) :=
  let dbParams := GetDatabaseParams env in
  dbSchemaVer ← GetSetting "DBSchemaVer" "";
  let backupDirectory := GetBackupDirectory env in
  backupFilename ← CreateBackupFilename env (dbName dbParams +:+ "-" +:+ dbSchemaVer) ".sql";
  scriptArgs ← GetSetting "BackupDBScriptArgs" "";
  let rotate := "rotate=-1" in
  let '(scriptArgs, rotate) :=
    if negb (isEmpty scriptArgs) then
      (" " +:+ scriptArgs,
       if contains_ci "rotate" (" " +:+ scriptArgs) then "" else rotate)
    else (scriptArgs, rotate) in
  let privateinfo :=
    "DBHostName=" +:+ dbHostName dbParams +:+ nl +:+ "DBPort=" +:+ pretty (dbPort dbParams)
    +:+ nl +:+ "DBUserName=" +:+ dbUserName dbParams
    +:+ nl +:+ "DBPassword=" +:+ dbPassword dbParams
    +:+ nl +:+ "DBName=" +:+ dbName dbParams
    +:+ nl +:+ "DBSchemaVer=" +:+ dbSchemaVer
    +:+ nl +:+ "DBBackupDirectory=" +:+ backupDirectory
    +:+ nl +:+ "DBBackupFilename=" +:+ backupFilename
    +:+ nl +:+ rotate +:+ nl in
  '(hastemp, tempDatabaseConfFile) ← CreateTemporaryDBConf env privateinfo;
  let command := backupScript +:+ scriptArgs +:+ " " +:+ tempDatabaseConfFile in
  status ← run_system env command;
  _ ← (if hastemp : bool then unlink tempDatabaseConfFile else mret tt);
  if negb (status =? GENERIC_EXIT_OK)%Z then
    mret (false, "__FAILED__")
  else
    w ← get_world;
    let dir := QDir_entries env (trace w) backupDirectory (backupFilename +:+ "*") in
    let numfiles := List.length dir in
    if (numfiles <? 1)%nat then mret (true, "")
    else mret (true, backupDirectory +:+ "/" +:+ (dir !!! 0%nat)).

(** [DBUtil::DoBackup(QString &filename)], the internal fallback. *)
Definition DoBackup (env : Env) (filename : string) : M (bool * string) :=
  let dbParams := GetDatabaseParams env in
  dbSchemaVer ← GetSetting "DBSchemaVer" "";
  let backupDirectory := GetBackupDirectory env in
  let compressCommand :=
    if QFile_exists env "/bin/gzip" then "/bin/gzip"
    else if QFile_exists env "/usr/bin/gzip" then "/usr/bin/gzip"
    else "" in
  let extension := ".sql" in
  backupFilename ← CreateBackupFilename env (dbName dbParams +:+ "-" +:+ dbSchemaVer) extension;
  let backupPathname := backupDirectory +:+ "/" +:+ backupFilename in
  let privateinfo :=
    "[client]" +:+ nl +:+ "password=" +:+ dbPassword dbParams
    +:+ nl +:+ "[mysqldump]" +:+ nl +:+ "password=" +:+ dbPassword dbParams
    +:+ nl in
  '(created, tempExtraConfFile) ← CreateTemporaryDBConf env privateinfo;
  if negb created then mret (false, filename)
  else
    let portArg :=
      if (dbPort dbParams >? 0)%Z then " --port='" +:+ pretty (dbPort dbParams) +:+ "'"
      else "" in
    let command :=
      "mysqldump --defaults-extra-file='" +:+ tempExtraConfFile
      +:+ "' --host='" +:+ dbHostName dbParams +:+ "'" +:+ portArg
      +:+ " --user='" +:+ dbUserName dbParams
      +:+ "' --add-drop-table --add-locks --allow-keywords --complete-insert"
      +:+ " --extended-insert --lock-tables --no-create-db --quick '"
      +:+ dbName dbParams +:+ "' > '" +:+ backupPathname +:+ "' 2>/dev/null" in
    status ← run_system env command;
    _ ← unlink tempExtraConfFile;
    if negb (status =? GENERIC_EXIT_OK)%Z then
      mret (false, "__FAILED__")
    else if negb (isEmpty compressCommand) then
      status ← run_system env (compressCommand +:+ " " +:+ backupPathname);
      if negb (status =? GENERIC_EXIT_OK)%Z then mret (true, backupPathname)
      else mret (true, backupPathname +:+ ".gz")
    else mret (true, backupPathname).

(** [DBUtil::BackupDB(QString &filename)]: the status and the new value of
    [filename]. *)
Definition BackupDB (env : Env) (filename : string) : M (MythDBBackupStatus * string) :=
  let filename := "" in
  if USING_MINGW env then mret (kDB_Backup_Disabled, filename)
  else if negb (GetNumSetting env "DisableAutomaticBackup" 0 =? 0)%Z then
    mret (kDB_Backup_Disabled, filename)
  else if IsNewDatabase (GetTables env) then
    mret (kDB_Backup_Empty_DB, filename)
  else
    let backupScript := GetShareDir env +:+ "mythconverg_backup.pl" in
    backupScript ← GetSetting "DatabaseBackupScript" backupScript;
    let backupScript := if negb (QFile_exists env backupScript) then "" else backupScript in
    let result := false in
    time ← now_string env "yyyy-MM-dd hh:mm:ss";
    _ ← SaveSettingOnHost "BackupDBLastRunStart" time;
    '(result, filename) ←
      (if negb (isEmpty backupScript) then DoBackup_script env backupScript filename
       else mret (result, filename));
    '(result, filename) ←
      (if negb result then DoBackup env filename else mret (result, filename));
    time ← now_string env "yyyy-MM-dd hh:mm:ss";
    _ ← SaveSettingOnHost "BackupDBLastRunEnd" time;
    _ ← (if isConnected env then
           _ ← exec "DELETE FROM housekeeping WHERE tag = 'BackupDB' ;";
           exec "INSERT INTO housekeeping(tag,lastrun) values('BackupDB' ,now()) ;"
         else mret tt);
    if result : bool then mret (kDB_Backup_Completed, filename)
    else mret (kDB_Backup_Failed, filename).

Definition empty_world : World := mkWorld ∅ ∅ [].

(** A computation only adds to the history. *)
Definition extends {A : Type} (m : M A) : Prop :=
  forall w, exists l, trace (snd (m w)) = trace w ++ l.

(** A computation leaves no temporary file behind that was not there. *)
Definition cleans_up {A : Type} (m : M A) : Prop :=
  forall w, dom (tmp_files (snd (m w))) ⊆ dom (tmp_files w).

(** The name of the temporary file a call of [CreateTemporaryDBConf] made
    in world [w] gets. *)
Definition temp_name (env : Env) (w : World) : string :=
  createTempFile env (trace w) "/tmp/mythtv_db_backup_conf_XXXXXX".

(** A store with one table, no backup script, and a temporary directory in
    which no file can be opened for writing. *)
Definition env_no_staging : Env :=
  mkEnv false (fun _ d => d) ["`mythconverg`.`settings`"] "/usr/share/mythtv/"
        (fun _ => false)
        (mkDatabaseParams "localhost" 3306 "mythtv" "secret" "mythconverg")
        "/tmp" (fun _ _ => "20240101000000")
        (fun _ _ => "/tmp/mythtv_db_backup_conf_a1b2c3") (fun _ _ => false)
        (fun _ _ => 0%Z) (fun _ _ _ => []) true.

(** A store with one table and a backup script, where every external
    process exits with status 1. *)
Definition env_processes_fail : Env :=
  mkEnv false (fun _ d => d) ["`mythconverg`.`settings`"] "/usr/share/mythtv/"
        (fun _ => true)
        (mkDatabaseParams "localhost" 3306 "mythtv" "secret" "mythconverg")
        "/tmp" (fun _ _ => "20240101000000")
        (fun _ _ => "/tmp/mythtv_db_backup_conf_a1b2c3") (fun _ _ => true)
        (fun _ _ => 1%Z) (fun _ _ _ => []) true.

(** * Properties *)

(** ** Status reduction *)

Section CheckRepairFacts.

Variable toLower : string -> string.

Lemma row_verdict_running (v : bool) (r : Row) :
  row_verdict toLower v (Msg_type r) (Msg_text r) = running_verdict toLower v r.
Proof.
  unfold row_verdict, running_verdict, is_error, is_status, text_is_OK.
  rewrite (String.eqb_sym "status"), (String.eqb_sym "ok"), (String.eqb_sym "error").
  destruct (String.eqb_spec (toLower (Msg_type r)) "status") as [Hs|Hs];
    destruct (String.eqb_spec (toLower (Msg_type r)) "error") as [He|He];
    destruct (String.eqb (toLower (Msg_text r)) "ok"); simpl; try reflexivity.
  all: rewrite Hs in He; discriminate.
Qed.

Lemma table_verdict_snoc (t : string) (p : list Row) (r : Row) :
  table_verdict toLower t (p ++ [r]) =
  if String.eqb (Table r) t then running_verdict toLower (table_verdict toLower t p) r
  else table_verdict toLower t p.
Proof. unfold table_verdict. rewrite fold_left_app. reflexivity. Qed.

Lemma table_names_snoc (p : list Row) (r : Row) :
  table_names (p ++ [r]) =
  if bool_decide (Table r ∈ table_names p) then table_names p
  else table_names p ++ [Table r].
Proof. unfold table_names. rewrite fold_left_app. reflexivity. Qed.

Lemma elem_of_table_names (t : string) (p : list Row) :
  t ∈ table_names p <-> exists r, r ∈ p /\ Table r = t.
Proof.
  induction p as [|r p IH] using rev_ind.
  - split; [intros H; inversion H | intros (r & H & _); inversion H].
  - rewrite table_names_snoc. case_bool_decide as Hin.
    + rewrite IH. split.
      * intros (r' & Hr' & <-). exists r'. split; [|done].
        apply elem_of_app. by left.
      * intros (r' & Hr' & <-). apply elem_of_app in Hr' as [Hr'|Hr'].
        -- by exists r'.
        -- apply list_elem_of_singleton in Hr' as ->. by apply IH.
    + rewrite elem_of_app, IH, list_elem_of_singleton. split.
      * intros [(r' & Hr' & <-)| ->].
        -- exists r'. split; [|done]. apply elem_of_app. by left.
        -- exists r. split; [|done]. apply elem_of_app. right. by apply list_elem_of_singleton.
      * intros (r' & Hr' & <-). apply elem_of_app in Hr' as [Hr'|Hr'].
        -- left. by exists r'.
        -- apply list_elem_of_singleton in Hr' as ->. by right.
Qed.

Lemma table_names_NoDup (p : list Row) : NoDup (table_names p).
Proof.
  induction p as [|r p IH] using rev_ind; [constructor|].
  rewrite table_names_snoc. case_bool_decide as Hin; [done|].
  apply NoDup_app. split; [done|]. split; [|apply NoDup_singleton].
  intros x Hx Hx'. apply list_elem_of_singleton in Hx' as ->. done.
Qed.

Lemma table_verdict_absent (t : string) (p : list Row) :
  (forall r, r ∈ p -> Table r <> t) -> table_verdict toLower t p = true.
Proof.
  induction p as [|r p IH] using rev_ind; [done|].
  intros H. rewrite table_verdict_snoc.
  destruct (String.eqb_spec (Table r) t) as [Heq|Hne].
  - exfalso. apply (H r); [|done]. apply elem_of_app. right. by apply list_elem_of_singleton.
  - apply IH. intros r' Hr'. apply H. apply elem_of_app. by left.
Qed.

Lemma contiguous_snoc_inv (p : list Row) (r : Row) :
  contiguous (p ++ [r]) -> contiguous p.
Proof.
  intros H i j k ri rj rk Hijk Hi Hj Hk. apply (H i j k); [done|..];
    by apply lookup_app_l_Some.
Qed.

(** When the table name changes, the new name has not occurred before. *)
Lemma contiguous_fresh (p : list Row) (r0 r : Row) :
  contiguous ((p ++ [r0]) ++ [r]) -> Table r <> Table r0 ->
  forall r', r' ∈ p ++ [r0] -> Table r' <> Table r.
Proof.
  intros H Hne r' Hr' Heq.
  apply list_elem_of_lookup in Hr' as [i Hi].
  assert (Hlt : (i < List.length (p ++ [r0]))%nat) by (by eapply lookup_lt_Some).
  rewrite length_app in Hlt. simpl in Hlt.
  apply Hne. symmetry. rewrite <- Heq.
  apply (H i (List.length p) (List.length (p ++ [r0])) r' r0 r).
  - rewrite length_app. simpl. lia.
  - by apply lookup_app_l_Some.
  - apply lookup_app_l_Some. rewrite lookup_app_r by lia.
    by rewrite Nat.sub_diag.
  - rewrite lookup_app_r by lia. by rewrite Nat.sub_diag.
  - done.
Qed.

Lemma filter_verdict_snoc (d : list string) (p : list Row) (r : Row) :
  Table r ∉ d ->
  filter (fun t => table_verdict toLower t (p ++ [r]) = false) d =
  filter (fun t => table_verdict toLower t p = false) d.
Proof.
  induction d as [|x d IH]; intros Hd; [done|].
  apply not_elem_of_cons in Hd as [Hx Hd].
  assert (Hv : table_verdict toLower x (p ++ [r]) = table_verdict toLower x p).
  { rewrite table_verdict_snoc. by destruct (String.eqb_spec (Table r) x). }
  rewrite !filter_cons, IH by done.
  repeat case_decide; congruence.
Qed.

(** The locals after a non-empty run of rows: [ok] is the verdict of the
    table of the last row, [tables] holds the bad tables before it. *)
Lemma loop_invariant (p : list Row) (r0 : Row) :
  contiguous (p ++ [r0]) ->
  let st := fold_left (loop_body toLower) (p ++ [r0]) CR_init in
  table st = Table r0 /\ previous_table st = Table r0 /\
  ok st = table_verdict toLower (Table r0) (p ++ [r0]) /\
  exists d, table_names (p ++ [r0]) = d ++ [Table r0] /\
            tables st =
            filter (fun t => table_verdict toLower t (p ++ [r0]) = false) d.
Proof.
  revert r0. induction p as [|r1 p IH] using rev_ind; intros r0 Hc.
  - simpl. unfold loop_body, on_table_change, apply_row. simpl.
    rewrite row_verdict_running.
    assert (Hv : table_verdict toLower (Table r0) [r0] = running_verdict toLower true r0).
    { unfold table_verdict. simpl. by rewrite String.eqb_refl. }
    rewrite Hv.
    destruct (String.eqb_spec (Table r0) "") as [He|He]; simpl;
      (repeat split; try done; exists []; split; reflexivity).
  - specialize (IH r1 (contiguous_snoc_inv _ _ Hc)). simpl in IH.
    destruct IH as (Ht & Hp & Hok & d & Hd & Htabs).
    cbv zeta. rewrite fold_left_app. simpl.
    set (st := fold_left (loop_body toLower) (p ++ [r1]) CR_init) in *.
    unfold loop_body, apply_row. rewrite row_verdict_running.
    rewrite table_verdict_snoc, String.eqb_refl.
    unfold on_table_change. rewrite Hp.
    destruct (String.eqb_spec (Table r0) (Table r1)) as [Heq|Hne]; simpl.
    + (* another row of the current table *)
      rewrite Hok, Heq. repeat split; try done.
      exists d. rewrite table_names_snoc, Heq.
      assert (Hin : Table r1 ∈ table_names (p ++ [r1])).
      { rewrite Hd. apply elem_of_app. right. by apply list_elem_of_singleton. }
      rewrite bool_decide_eq_true_2 by done. split; [done|].
      rewrite Htabs. symmetry. apply filter_verdict_snoc.
      rewrite Heq. intros Hin'.
      pose proof (table_names_NoDup (p ++ [r1])) as Hnd. rewrite Hd in Hnd.
      apply NoDup_app in Hnd as (_ & Hnd & _).
      apply (Hnd _ Hin'). by apply list_elem_of_singleton.
    + (* the first row of a new table *)
      pose proof (contiguous_fresh p r1 r0 Hc Hne) as Hfresh.
      assert (Hnin : Table r0 ∉ table_names (p ++ [r1])).
      { intros Hin. apply elem_of_table_names in Hin as (r' & Hr' & Heq).
        by apply (Hfresh r'). }
      assert (Hv0 : table_verdict toLower (Table r0) (p ++ [r1]) = true).
      { apply table_verdict_absent. intros r' Hr'. by apply Hfresh. }
      rewrite Hv0.
      assert (Hnames : table_names ((p ++ [r1]) ++ [r0]) = (d ++ [Table r1]) ++ [Table r0]).
      { rewrite table_names_snoc, bool_decide_eq_false_2 by done. by rewrite Hd. }
      assert (Hfilter :
        filter (fun t => table_verdict toLower t ((p ++ [r1]) ++ [r0]) = false) (d ++ [Table r1]) =
        filter (fun t => table_verdict toLower t (p ++ [r1]) = false) (d ++ [Table r1])).
      { apply filter_verdict_snoc. by rewrite <- Hd. }
      destruct (ok st) eqn:Hokst; simpl.
      * repeat split; try done. exists (d ++ [Table r1]). split; [done|].
        rewrite Hfilter, filter_app, <- Htabs.
        rewrite (filter_cons_False _ (Table r1) []).
        -- by rewrite filter_nil, app_nil_r.
        -- rewrite <- Hok. done.
      * repeat split; try done. exists (d ++ [Table r1]). split; [done|].
        rewrite Hfilter, filter_app, <- Htabs.
        rewrite (filter_cons_True _ (Table r1) []).
        -- by rewrite filter_nil.
        -- by rewrite <- Hok.
Qed.

Lemma CheckRepairStatus_contiguous (rows : list Row) :
  contiguous rows -> CheckRepairStatus toLower rows = bad_tables toLower rows.
Proof.
  destruct rows as [|r0 p _] using rev_ind; [done|].
  intros Hc. destruct (loop_invariant p r0 Hc) as (Ht & _ & Hok & d & Hd & Htabs).
  unfold CheckRepairStatus, CR_finish, bad_tables.
  rewrite Hd, filter_app, <- Htabs, Ht, filter_singleton; [|exact []].
  rewrite Hok. case_decide as Hv; rewrite Hv || apply not_false_is_true in Hv.
  - done.
  - rewrite Hv. simpl. by rewrite app_nil_r.
Qed.

Lemma running_verdict_applicable (v : bool) (r : Row) :
  running_verdict toLower v r =
  if applicable toLower r then negb (leaves_not_OK toLower r) else v.
Proof.
  unfold running_verdict, applicable, leaves_not_OK.
  destruct (is_error toLower r), (is_status toLower r), (text_is_OK toLower r); done.
Qed.

(** The running verdict of a table is what its final applicable row says. *)
Lemma table_verdict_final (t : string) (rows : list Row) :
  table_verdict toLower t rows =
  match final_applicable toLower t rows with
  | Some r => negb (leaves_not_OK toLower r)
  | None => true
  end.
Proof.
  induction rows as [|r p IH] using rev_ind; [done|].
  rewrite table_verdict_snoc. unfold final_applicable in *.
  rewrite filter_app, filter_cons, filter_nil.
  rewrite running_verdict_applicable.
  destruct (String.eqb_spec (Table r) t) as [Heq|Hne].
  - destruct (applicable toLower r) eqn:Happ.
    + rewrite decide_True by done. by rewrite last_snoc.
    + rewrite decide_False by (intros [_ ?]; done). by rewrite app_nil_r.
  - rewrite decide_False by (intros [? _]; done). by rewrite app_nil_r.
Qed.

Lemma final_applicable_in (t : string) (rows : list Row) (r : Row) :
  final_applicable toLower t rows = Some r -> r ∈ rows /\ Table r = t.
Proof.
  unfold final_applicable. intros H.
  assert (Hin : r ∈ filter (fun r => Table r = t /\ applicable toLower r = true) rows).
  { apply last_Some in H as [l' ->]. apply elem_of_app. right.
    by apply list_elem_of_singleton. }
  apply list_elem_of_filter in Hin as [[? _] ?]. done.
Qed.

Lemma elem_of_bad_tables (t : string) (rows : list Row) :
  t ∈ bad_tables toLower rows <->
  exists r, final_applicable toLower t rows = Some r /\ leaves_not_OK toLower r = true.
Proof.
  unfold bad_tables. rewrite list_elem_of_filter, table_verdict_final. split.
  - intros [Hv _]. destruct (final_applicable toLower t rows) as [r|]; [|done].
    exists r. split; [done|]. by apply negb_false_iff.
  - intros (r & Hf & Hbad). rewrite Hf, Hbad. split; [done|].
    apply final_applicable_in in Hf as [Hin Ht].
    apply elem_of_table_names. by exists r.
Qed.

End CheckRepairFacts.

(** C1. When the rows of each table are contiguous, [CheckRepairStatus]
    returns, once each and in order of appearance, exactly the tables whose
    running verdict ends not-OK, that is the tables whose final applicable
    row (type error or status, letter case ignored) is an error row or a
    status row with a text other than OK. A status OK row clears an earlier
    error; an error after a status OK row marks the table; a table is
    settled when the name changes and after the last row. The four result
    sets of the specification give [], [], [t1] and [t1]. *)
Theorem CheckRepairStatus_final_row_wins :
  (forall (toLower : string -> string) (rows : list Row),
     contiguous rows ->
     CheckRepairStatus toLower rows = bad_tables toLower rows
     /\ NoDup (CheckRepairStatus toLower rows)
     /\ forall t, t ∈ CheckRepairStatus toLower rows <->
                  exists r, final_applicable toLower t rows = Some r
                            /\ leaves_not_OK toLower r = true)
  /\ CheckRepairStatus toLower_ascii [mkRow "t1" "status" "OK"] = []
  /\ CheckRepairStatus toLower_ascii
       [mkRow "t1" "error" "corrupt"; mkRow "t1" "status" "OK"] = []
  /\ CheckRepairStatus toLower_ascii
       [mkRow "t1" "status" "OK"; mkRow "t1" "error" "x"] = ["t1"]
  /\ CheckRepairStatus toLower_ascii
       [mkRow "t1" "error" "x"; mkRow "t2" "status" "OK"] = ["t1"].
Proof.
  split; [|repeat split; reflexivity].
  intros toLower rows Hc.
  rewrite (CheckRepairStatus_contiguous toLower rows Hc).
  split; [done|]. split.
  - unfold bad_tables. apply NoDup_filter, table_names_NoDup.
  - intros t. apply elem_of_bad_tables.
Qed.

Lemma CheckRepairStatus_final_row_wins_witness :
  let rows := [mkRow "t1" "error" "x"; mkRow "t2" "status" "Corrupt";
               mkRow "t2" "warning" "w"; mkRow "t3" "status" "OK"] in
  contiguous rows /\ CheckRepairStatus toLower_ascii rows = ["t1"; "t2"].
Proof.
  intros rows.
  assert (Hc : contiguous rows).
  { intros i j k ri rj rk [Hij Hjk] Hi Hj Hk Heq. subst rows.
    destruct i as [|[|[|[|i]]]]; try discriminate Hi;
      destruct k as [|[|[|[|k]]]]; try discriminate Hk;
      destruct j as [|[|[|[|j]]]]; try discriminate Hj;
      try lia; simplify_eq/=; done. }
  split; [exact Hc|].
  destruct (proj1 CheckRepairStatus_final_row_wins toLower_ascii rows Hc) as [-> _].
  reflexivity.
Defined.

(** C10. A row whose type is neither error nor status (letter case
    ignored) leaves the running verdict and the list of bad tables as they
    are: the second half of the loop body changes nothing, the whole loop
    body changes nothing when the row continues the current table, the
    result is the same with and without the row when a row of the same
    table stands before or after it, and a result set made of such a row
    alone reports no table. *)
Theorem other_row_types_leave_verdict :
  forall (toLower : string -> string) (r : Row),
    toLower (Msg_type r) <> "error" ->
    toLower (Msg_type r) <> "status" ->
    (forall st, apply_row toLower st r = st)
    /\ (forall st, table st = Table r -> previous_table st = Table r ->
                   loop_body toLower st r = st)
    /\ (forall pre r0 post, Table r0 = Table r ->
          CheckRepairStatus toLower (pre ++ r0 :: r :: post) =
          CheckRepairStatus toLower (pre ++ r0 :: post))
    /\ (forall pre r1 post, Table r1 = Table r ->
          CheckRepairStatus toLower (pre ++ r :: r1 :: post) =
          CheckRepairStatus toLower (pre ++ r1 :: post))
    /\ CheckRepairStatus toLower [r] = [].
Proof.
  intros toLower r He Hs.
  assert (Hrow : forall v, row_verdict toLower v (Msg_type r) (Msg_text r) = v).
  { intros v. unfold row_verdict.
    destruct (String.eqb_spec "status" (toLower (Msg_type r))) as [E|_]; [by rewrite <- E in Hs|].
    destruct (String.eqb_spec "error" (toLower (Msg_type r))) as [E|_]; [by rewrite <- E in He|].
    done. }
  assert (Happly : forall st, apply_row toLower st r = st).
  { intros [ts t pt v]. unfold apply_row. simpl. by rewrite Hrow. }
  assert (Hbody : forall st, table st = Table r -> previous_table st = Table r ->
                             loop_body toLower st r = st).
  { intros [ts t pt v] Ht Hp. simpl in *. subst.
    unfold loop_body. rewrite Happly. unfold on_table_change. simpl.
    by rewrite String.eqb_refl. }
  assert (Hafter : forall st r0, Table r0 = Table r ->
            loop_body toLower (loop_body toLower st r0) r = loop_body toLower st r0).
  { intros st r0 Heq. apply Hbody.
    - unfold loop_body, apply_row, on_table_change. simpl.
      by repeat case_match.
    - unfold loop_body, apply_row, on_table_change. simpl.
      destruct (String.eqb_spec (Table r0) (previous_table st)); simpl;
        repeat case_match; simpl; congruence. }
  assert (Hbefore : forall st r1, Table r1 = Table r ->
            loop_body toLower (loop_body toLower st r) r1 = loop_body toLower st r1).
  { intros st r1 Heq. unfold loop_body at 1 2. rewrite Happly.
    unfold loop_body, on_table_change. rewrite Heq. simpl.
    destruct (String.eqb_spec (Table r) (previous_table st)) as [E|E]; simpl.
    - by rewrite E, String.eqb_refl.
    - destruct (ok st); simpl; by rewrite String.eqb_refl. }
  repeat split; try done.
  - intros pre r0 post Heq. unfold CheckRepairStatus.
    rewrite !fold_left_app. simpl. by rewrite Hafter.
  - intros pre r1 post Heq. unfold CheckRepairStatus.
    rewrite !fold_left_app. simpl. by rewrite Hbefore.
  - unfold CheckRepairStatus. simpl. unfold loop_body. rewrite Happly.
    unfold on_table_change, CR_finish. simpl.
    by destruct (negb (Table r =? "")%string).
Qed.

Lemma other_row_types_leave_verdict_witness :
  CheckRepairStatus toLower_ascii
    ([mkRow "t1" "error" "x"] ++ mkRow "t1" "status" "OK" :: mkRow "t1" "Warning" "w" :: []) =
  CheckRepairStatus toLower_ascii
    ([mkRow "t1" "error" "x"] ++ mkRow "t1" "status" "OK" :: []).
Proof.
  assert (He : toLower_ascii "Warning" <> "error") by discriminate.
  assert (Hs : toLower_ascii "Warning" <> "status") by discriminate.
  destruct (other_row_types_leave_verdict toLower_ascii (mkRow "t1" "Warning" "w") He Hs)
    as (_ & _ & H & _).
  exact (H [mkRow "t1" "error" "x"] (mkRow "t1" "status" "OK") [] eq_refl).
Defined.

(** ** Version parsing *)

Lemma append_cons (c : ascii) (s t : string) : String c s +:+ t = String c (s +:+ t).
Proof. reflexivity. Qed.

Lemma append_empty_l (t : string) : "" +:+ t = t.
Proof. reflexivity. Qed.

Lemma append_empty_r (s : string) : s +:+ "" = s.
Proof. induction s as [|c s IH]; [done|by rewrite append_cons, IH]. Qed.

Lemma append_snoc (s : string) (c : ascii) (t : string) :
  (s +:+ String c "") +:+ t = s +:+ String c t.
Proof. induction s as [|c' s IH]; [done|by rewrite !append_cons, IH]. Qed.

Lemma string_drop_empty (n : nat) : string_drop n "" = "".
Proof. by destruct n. Qed.

Lemma string_drop_add (a b : nat) (s : string) :
  string_drop (a + b) s = string_drop b (string_drop a s).
Proof.
  revert s. induction a as [|a IH]; intros s; [done|].
  destruct s as [|c s]; simpl; [by rewrite string_drop_empty|apply IH].
Qed.

Lemma digit_run_all_digits (s : string) : all_digits (digit_run s) = true.
Proof.
  induction s as [|c s IH]; [done|]. simpl.
  destruct (is_digit c) eqn:Hc; [|done]. simpl. by rewrite Hc.
Qed.

(** A group in the making [cur] is completed by the run of digits at the
    head of the text; the groups after it are those of the rest. *)
Lemma digit_groups_from_run (cur s : string) :
  digit_groups_from cur s =
  (if isEmpty (cur +:+ digit_run s) then [] else [cur +:+ digit_run s])
  ++ digit_groups_from "" (string_drop (String.length (digit_run s)) s).
Proof.
  revert cur. induction s as [|c s IH]; intros cur.
  - simpl. rewrite append_empty_r. by destruct (isEmpty cur).
  - simpl. destruct (is_digit c) eqn:Hc.
    + rewrite IH. by rewrite append_snoc.
    + simpl. rewrite append_empty_r, Hc. simpl. by destruct (isEmpty cur).
Qed.

Lemma first_digit_None (s : string) :
  first_digit s = None -> digit_groups s = [].
Proof.
  unfold digit_groups. induction s as [|c s IH]; [done|]. simpl.
  destruct (is_digit c); [done|].
  destruct (first_digit s); simpl; [done|]. intros _. by apply IH.
Qed.

Lemma first_digit_Some (s : string) (k : nat) :
  first_digit s = Some k ->
  digit_groups s = digit_groups (string_drop k s)
  /\ exists c s', string_drop k s = String c s' /\ is_digit c = true.
Proof.
  unfold digit_groups. revert k. induction s as [|c s IH]; intros k; [done|]. simpl.
  destruct (is_digit c) eqn:Hc.
  - intros [= <-]. split; [simpl; by rewrite Hc|]. by exists c, s.
  - destruct (first_digit s) as [k'|]; simpl; [|done]. intros [= <-]. simpl.
    by apply IH.
Qed.

(** The groups of a text with a digit: the run at the first digit, then
    the groups of what follows the run. *)
Lemma digit_groups_unfold (s : string) (k : nat) :
  first_digit s = Some k ->
  let g := digit_run (string_drop k s) in
  digit_groups s = g :: digit_groups (string_drop (k + String.length g) s)
  /\ isEmpty g = false /\ all_digits g = true.
Proof.
  intros Hk g. destruct (first_digit_Some s k Hk) as (Hg & c & s' & Hs & Hc).
  assert (Hne : isEmpty g = false).
  { unfold g. rewrite Hs. simpl. by rewrite Hc. }
  split; [|split; [done|apply digit_run_all_digits]].
  rewrite Hg. unfold digit_groups at 1. rewrite digit_groups_from_run.
  rewrite append_empty_l. fold g. rewrite Hne. simpl. by rewrite string_drop_add.
Qed.

Lemma indexIn_suffix (str : string) (pos : Z) :
  (0 <= pos)%Z ->
  indexIn str pos =
  match first_digit (string_drop (Z.to_nat pos) str) with
  | None => ((-1)%Z, "")
  | Some k => ((pos + Z.of_nat k)%Z,
               digit_run (string_drop k (string_drop (Z.to_nat pos) str)))
  end.
Proof.
  intros Hpos. unfold indexIn.
  destruct (first_digit (string_drop (Z.to_nat pos) str)) as [k|]; [|done].
  f_equal. rewrite <- string_drop_add. f_equal. f_equal. lia.
Qed.

Lemma toInt_group (g : string) :
  isEmpty g = false -> all_digits g = true ->
  (let '(v, ok) := toInt g in if negb ok then (-1)%Z else v) = component_of_group g.
Proof.
  intros Hne Hd. unfold toInt, component_of_group. rewrite Hne, Hd. simpl.
  by destruct (decimal_value g <=? INT_MAX)%Z.
Qed.

(** The loop writes the groups of the text from [pos] on, in order. *)
Lemma parse_loop_groups (n : nat) (str : string) (pos i : Z) (version : list Z) :
  (0 <= pos)%Z ->
  parse_loop n str pos i version =
  fill_components n (digit_groups (string_drop (Z.to_nat pos) str)) i version.
Proof.
  revert pos i version. induction n as [|n IH]; intros pos i version Hpos; [done|].
  simpl. rewrite indexIn_suffix by done.
  destruct (first_digit (string_drop (Z.to_nat pos) str)) as [k|] eqn:Hk.
  - destruct (digit_groups_unfold _ k Hk) as (Hg & Hne & Hd). simpl in Hg.
    rewrite Hg.
    set (g := digit_run (string_drop k (string_drop (Z.to_nat pos) str))) in *.
    destruct (i <? 3)%Z; [|done].
    replace (pos + Z.of_nat k >? -1)%Z with true
      by (symmetry; apply Z.gtb_lt; lia).
    pose proof (toInt_group g Hne Hd) as Hconv.
    destruct (toInt g) as [v okc]. rewrite IH by lia.
    rewrite <- string_drop_add.
    replace (Z.to_nat (pos + Z.of_nat k + Z.of_nat (String.length g)))
      with (Z.to_nat pos + (k + String.length g))%nat by lia.
    f_equal. rewrite <- Hconv. destruct okc; simpl; [done|].
    apply list_insert_insert_eq.
  - rewrite (first_digit_None _ Hk). simpl. by destruct (i <? 3)%Z.
Qed.

Lemma parse_version_string_components (d : DBUtil) :
  let s := m_versionString d in
  snd (parse_version_string d) =
  mkDBUtil s (component s 0) (component s 1) (component s 2).
Proof.
  unfold parse_version_string. cbv zeta. cbn [snd].
  rewrite parse_loop_groups by done. simpl.
  unfold component.
  destruct (digit_groups (m_versionString d)) as [|g0 [|g1 [|g2 gs]]]; reflexivity.
Qed.

Lemma ParseDBMSVersion_components (srv : Server) (d : DBUtil) :
  let s := fst (GetDBMSVersion srv d) in
  snd (ParseDBMSVersion srv d) =
  if isEmpty s then
    mkDBUtil "" (m_versionMajor d) (m_versionMinor d) (m_versionPoint d)
  else mkDBUtil s (component s 0) (component s 1) (component s 2).
Proof.
  unfold ParseDBMSVersion, GetDBMSVersion.
  destruct (isEmpty (m_versionString d)) eqn:He.
  - unfold QueryDBMSVersion. cbn [snd fst m_versionString].
    set (s := if isEmpty (DBMSVersionOverride srv) then _ else _).
    destruct (isEmpty s) eqn:Hs; cbn [negb].
    + apply String.eqb_eq in Hs. by rewrite Hs.
    + by rewrite parse_version_string_components.
  - cbn [fst]. rewrite He. apply parse_version_string_components.
Qed.

(** C4. Parsing takes the groups of consecutive digits of the version
    string from left to right, at most three, and stores group 0, 1 and 2 as
    major, minor and point; a component without a group is Unknown (-1), and
    so is, alone, a component whose group does not fit an int. With an empty
    version string after the probe nothing is parsed. "5.0.22" gives
    (5,0,22), "10.3-something-4" gives (10,3,4), "10.3" gives
    (10,3,Unknown). *)
Theorem ParseDBMSVersion_digit_groups :
  (forall d : DBUtil,
     let s := m_versionString d in
     snd (parse_version_string d) =
     mkDBUtil s (component s 0) (component s 1) (component s 2))
  /\ (forall (srv : Server) (d : DBUtil),
        let s := fst (GetDBMSVersion srv d) in
        snd (ParseDBMSVersion srv d) =
        if isEmpty s then
          mkDBUtil "" (m_versionMajor d) (m_versionMinor d) (m_versionPoint d)
        else mkDBUtil s (component s 0) (component s 1) (component s 2))
  /\ digit_groups "10.3-something-4" = ["10"; "3"; "4"]
  /\ ParseDBMSVersion (mkServer "" (Some "5.0.22")) DBUtil_new =
     (true, mkDBUtil "5.0.22" 5 0 22)
  /\ ParseDBMSVersion (mkServer "" (Some "10.3-something-4")) DBUtil_new =
     (true, mkDBUtil "10.3-something-4" 10 3 4)
  /\ ParseDBMSVersion (mkServer "" (Some "10.3")) DBUtil_new =
     (true, mkDBUtil "10.3" 10 3 Unknown)
  /\ ParseDBMSVersion (mkServer "" (Some "5.99999999999.1")) DBUtil_new =
     (true, mkDBUtil "5.99999999999.1" 5 Unknown 1)
  /\ ParseDBMSVersion (mkServer "" (Some "1.2.3.4")) DBUtil_new =
     (true, mkDBUtil "1.2.3.4" 1 2 3).
Proof.
  split; [exact parse_version_string_components|].
  split; [exact ParseDBMSVersion_components|].
  repeat split; vm_compute; reflexivity.
Qed.

(** ** Version comparison *)

Lemma int_sub_exact (v c : Z) : in_int (v - c) -> int_sub v c = (v - c)%Z.
Proof.
  unfold int_sub, wrap_int, in_int, INT_MIN, INT_MAX. intros H.
  rewrite Z.mod_small; lia.
Qed.

Lemma int_sub_zero (v c : Z) :
  in_int v -> in_int c -> (int_sub v c =? 0)%Z = (v =? c)%Z.
Proof.
  unfold int_sub, wrap_int, in_int, INT_MIN, INT_MAX. intros Hv Hc.
  destruct (Z.eqb_spec v c) as [->|Hne].
  - rewrite Z.sub_diag. reflexivity.
  - apply Z.eqb_neq. intros H.
    pose proof (Z.div_mod (v - c - -2147483648) (2 ^ 32) ltac:(lia)) as Hdm.
    assert (Hm : ((v - c - -2147483648) mod 2 ^ 32 = 2147483648)%Z) by lia.
    rewrite Hm in Hdm. lia.
Qed.

Lemma int_sub_diag (v : Z) : int_sub v v = 0%Z.
Proof. unfold int_sub. by rewrite Z.sub_diag. Qed.

(** The [for] loop is the walk over the three pairs. *)
Lemma compare_versions_walk (d : DBUtil) (major minor point : Z) :
  DBUtil_ints d -> in_int major -> in_int minor -> in_int point ->
  compare_versions d major minor point =
  walk_components [(m_versionMajor d, major); (m_versionMinor d, minor);
                   (m_versionPoint d, point)].
Proof.
  intros (HM & Hm & Hp) Hmajor Hminor Hpoint.
  destruct d as [s M m p]. simpl in *.
  unfold compare_versions, walk_components, is_unknown. simpl.
  pose proof (int_sub_zero M major HM Hmajor) as E1.
  pose proof (int_sub_zero m minor Hm Hminor) as E2.
  pose proof (int_sub_zero p point Hp Hpoint) as E3.
  destruct (M >? -1)%Z, (major =? 0)%Z; simpl; rewrite ?E1;
    destruct (Z.eqb_spec M major) as [->|?]; simpl; try reflexivity;
    destruct (m >? -1)%Z, (minor =? 0)%Z; simpl; rewrite ?E2;
    destruct (Z.eqb_spec m minor) as [->|?]; simpl; try reflexivity;
    destruct (p >? -1)%Z, (point =? 0)%Z; simpl; rewrite ?E3;
    destruct (Z.eqb_spec p point) as [->|?]; simpl;
    rewrite ?int_sub_diag; reflexivity.
Qed.

Lemma digit_value_nonneg (c : ascii) : is_digit c = true -> (0 <= digit_value c)%Z.
Proof.
  unfold is_digit, digit_value. intros H.
  apply andb_true_iff in H as [H _]. apply Nat.leb_le in H. lia.
Qed.

Lemma decimal_from_nonneg (s : string) (acc : Z) :
  all_digits s = true -> (0 <= acc)%Z -> (0 <= decimal_from acc s)%Z.
Proof.
  revert acc. induction s as [|c s IH]; intros acc Hd Hacc; [done|].
  simpl in *. apply andb_true_iff in Hd as [Hc Hd].
  apply IH; [done|]. pose proof (digit_value_nonneg c Hc). lia.
Qed.

Lemma all_digits_snoc (s : string) (c : ascii) :
  all_digits s = true -> is_digit c = true -> all_digits (s +:+ String c "") = true.
Proof.
  induction s as [|c' s IH]; intros Hs Hc.
  - simpl. by rewrite Hc.
  - rewrite append_cons. simpl in *. apply andb_true_iff in Hs as [-> Hs].
    by apply IH.
Qed.

Lemma digit_groups_from_all_digits (cur s : string) :
  all_digits cur = true ->
  Forall (fun g => all_digits g = true) (digit_groups_from cur s).
Proof.
  revert cur. induction s as [|c s IH]; intros cur Hcur; simpl.
  - destruct (isEmpty cur); by repeat constructor.
  - destruct (is_digit c) eqn:Hc.
    + apply IH. by apply all_digits_snoc.
    + destruct (isEmpty cur); [by apply IH|]. constructor; [done|by apply IH].
Qed.

Lemma component_range (s : string) (i : nat) :
  (-1 <= component s i <= INT_MAX)%Z.
Proof.
  unfold component. destruct (digit_groups s !! i) as [g|] eqn:Hg; [|done].
  assert (Hd : all_digits g = true).
  { pose proof (digit_groups_from_all_digits "" s eq_refl) as Hall.
    rewrite Forall_forall in Hall. apply Hall. by eapply list_elem_of_lookup_2. }
  unfold component_of_group, Unknown.
  pose proof (decimal_from_nonneg g 0 Hd ltac:(done)) as Hnn. fold (decimal_value g) in Hnn.
  destruct (Z.leb_spec (decimal_value g) INT_MAX); [lia|done].
Qed.

Lemma component_in_int (s : string) (i : nat) : in_int (component s i).
Proof. pose proof (component_range s i). unfold in_int, INT_MIN, INT_MAX in *. lia. Qed.

(** Parsing fails on a version string without a group of digits (an empty
    string is one) and on one whose first group does not fit an [int]. *)
Lemma ParseDBMSVersion_fails (srv : Server) (d : DBUtil) :
  let s := fst (GetDBMSVersion srv d) in
  fst (ParseDBMSVersion srv d) = false <->
  digit_groups s = []
  \/ exists g rest, digit_groups s = g :: rest /\ (decimal_value g > INT_MAX)%Z.
Proof.
  assert (Hparse : forall d0 : DBUtil,
    fst (parse_version_string d0) = false <->
    digit_groups (m_versionString d0) = []
    \/ exists g rest, digit_groups (m_versionString d0) = g :: rest
                      /\ (decimal_value g > INT_MAX)%Z).
  { intros d0.
    assert (Hfst : fst (parse_version_string d0) =
                   (m_versionMajor (snd (parse_version_string d0)) >? -1)%Z)
      by reflexivity.
    rewrite Hfst, parse_version_string_components. cbn [m_versionMajor].
    pose proof (digit_groups_from_all_digits "" (m_versionString d0) eq_refl) as Hall.
    fold (digit_groups (m_versionString d0)) in Hall.
    unfold component, component_of_group, Unknown.
    destruct (digit_groups (m_versionString d0)) as [|g rest]; simpl.
    - split; [by left|done].
    - apply Forall_cons in Hall as [Hg _].
      pose proof (decimal_from_nonneg g 0 Hg ltac:(done)) as Hnn.
      fold (decimal_value g) in Hnn.
      destruct (Z.leb_spec (decimal_value g) INT_MAX) as [Hle|Hgt].
      + split.
        * intros Hf.
          assert ((decimal_value g >? -1)%Z = true) by (apply Z.gtb_lt; lia).
          congruence.
        * intros [?|(g' & rest' & [= <- <-] & ?)]; [done|lia].
      + split; [|done]. intros _. right. exists g, rest. split; [done|lia]. }
  unfold ParseDBMSVersion, GetDBMSVersion.
  destruct (isEmpty (m_versionString d)) eqn:He.
  - unfold QueryDBMSVersion. cbn [snd fst m_versionString].
    set (s := if isEmpty (DBMSVersionOverride srv) then _ else _).
    destruct (isEmpty s) eqn:Hs; cbn [negb fst].
    + apply String.eqb_eq in Hs. rewrite Hs. split; [by left|done].
    + apply (Hparse (mkDBUtil s _ _ _)).
  - cbn [fst]. apply Hparse.
Qed.

(** C3. [CompareDBMSVersion] compares the stored components, parsing
    first when the major component is below zero. When that parse fails
    (no group of digits in the version string, or a first group that does
    not fit an int) it returns the Unknown sentinel. Otherwise it walks
    major, minor, point: a component is skipped exactly when the probed
    value is unknown and the requested value is 0; the first compared pair
    that differs gives the result, its difference in int arithmetic (the
    mathematical difference whenever that fits an int); the result is 0
    when every pair is skipped or equal. *)
Theorem CompareDBMSVersion_walks_components :
  forall (srv : Server) (d : DBUtil) (major minor point : Z),
    DBUtil_ints d -> in_int major -> in_int minor -> in_int point ->
    let result := fst (CompareDBMSVersion srv major minor point d) in
    let d' := snd (CompareDBMSVersion srv major minor point d) in
    let parsed := (m_versionMajor d <? 0)%Z in
    let parse_failed := parsed && negb (fst (ParseDBMSVersion srv d)) in
    d' = (if parsed then snd (ParseDBMSVersion srv d) else d)
    /\ (parse_failed = true -> result = kUnknownVersionNumber)
    /\ (parse_failed = false ->
        result = walk_components [(m_versionMajor d', major);
                                  (m_versionMinor d', minor);
                                  (m_versionPoint d', point)])
    /\ (fst (ParseDBMSVersion srv d) = false <->
        digit_groups (fst (GetDBMSVersion srv d)) = []
        \/ exists g rest, digit_groups (fst (GetDBMSVersion srv d)) = g :: rest
                          /\ (decimal_value g > INT_MAX)%Z)
    /\ (forall v c, in_int (v - c) -> int_sub v c = (v - c)%Z).
Proof.
  intros srv d major minor point Hd Hmajor Hminor Hpoint.
  assert (Hok : fst (ParseDBMSVersion srv d) = true ->
                DBUtil_ints (snd (ParseDBMSVersion srv d))).
  { pose proof (ParseDBMSVersion_components srv d) as Hc. cbv zeta in Hc.
    destruct (isEmpty (fst (GetDBMSVersion srv d))) eqn:He.
    - intros _. rewrite Hc. exact Hd.
    - intros _. rewrite Hc. repeat split; apply component_in_int. }
  pose proof (ParseDBMSVersion_fails srv d) as Hfail. cbv zeta in Hfail.
  cbv zeta. unfold CompareDBMSVersion.
  destruct (m_versionMajor d <? 0)%Z eqn:Hneg; cbn [andb].
  - destruct (ParseDBMSVersion srv d) as [r d1] eqn:Hp. cbn [fst snd] in *.
    destruct r; cbn [negb fst snd]; split_and!; try done.
    + intros _. apply compare_versions_walk; try done. by apply Hok.
    + apply int_sub_exact.
    + apply int_sub_exact.
  - cbn [fst snd]. split_and!; try done.
    + intros _. by apply compare_versions_walk.
    + apply int_sub_exact.
Qed.

Lemma CompareDBMSVersion_walks_components_witness :
  DBUtil_ints DBUtil_new
  /\ fst (CompareDBMSVersion (mkServer "" (Some "5.0.22")) 5 0 3 DBUtil_new) = 19%Z.
Proof.
  assert (Hd : DBUtil_ints DBUtil_new)
    by (unfold DBUtil_ints, in_int, INT_MIN, INT_MAX; simpl; lia).
  assert (H5 : in_int 5) by (unfold in_int, INT_MIN, INT_MAX; lia).
  assert (H0 : in_int 0) by (unfold in_int, INT_MIN, INT_MAX; lia).
  assert (H3 : in_int 3) by (unfold in_int, INT_MIN, INT_MAX; lia).
  split; [exact Hd|].
  destruct (CompareDBMSVersion_walks_components
              (mkServer "" (Some "5.0.22")) DBUtil_new 5 0 3 Hd H5 H0 H3)
    as (_ & _ & Hwalk & _).
  rewrite Hwalk; reflexivity.
Defined.

(** ** The stored components are never stale *)

Lemma all_unknown_empty (d : DBUtil) :
  m_versionString d = "" -> all_unknown d -> same_pass d.
Proof. unfold all_unknown, same_pass. intros -> H. exact H. Qed.

(** In every reachable state the components are unknown together or come
    from one pass over the stored string; with no string they are unknown. *)
Lemma reachable_components (d : DBUtil) :
  reachable d ->
  (all_unknown d \/ same_pass d) /\ (m_versionString d = "" -> all_unknown d).
Proof.
  assert (Hget : forall srv d0,
    ((all_unknown d0 \/ same_pass d0) /\ (m_versionString d0 = "" -> all_unknown d0)) ->
    (all_unknown (snd (GetDBMSVersion srv d0)) \/ same_pass (snd (GetDBMSVersion srv d0)))
    /\ (m_versionString (snd (GetDBMSVersion srv d0)) = "" ->
        all_unknown (snd (GetDBMSVersion srv d0)))).
  { intros srv d0 [Hinv Hempty]. unfold GetDBMSVersion. cbn [snd].
    destruct (isEmpty (m_versionString d0)) eqn:He; [|done].
    apply String.eqb_eq in He. specialize (Hempty He).
    unfold QueryDBMSVersion. cbn [snd]. split; [left|intros _]; exact Hempty. }
  assert (Hparse : forall srv d0,
    ((all_unknown d0 \/ same_pass d0) /\ (m_versionString d0 = "" -> all_unknown d0)) ->
    (all_unknown (snd (ParseDBMSVersion srv d0)) \/ same_pass (snd (ParseDBMSVersion srv d0)))
    /\ (m_versionString (snd (ParseDBMSVersion srv d0)) = "" ->
        all_unknown (snd (ParseDBMSVersion srv d0)))).
  { intros srv d0 [Hinv Hempty]. rewrite ParseDBMSVersion_components.
    destruct (isEmpty (fst (GetDBMSVersion srv d0))) eqn:He.
    - assert (Hs : m_versionString d0 = "").
      { unfold GetDBMSVersion in He. cbn [fst] in He.
        destruct (isEmpty (m_versionString d0)) eqn:He0; [by apply String.eqb_eq|].
        congruence. }
      specialize (Hempty Hs). split; [left|intros _]; exact Hempty.
    - split; [right; by repeat split|]. cbn [m_versionString]. intros Hs.
      rewrite Hs in He. discriminate. }
  induction 1 as [|srv d Hr IH|srv d Hr IH|srv major minor point d Hr IH].
  - split; [left|intros _]; by repeat split.
  - by apply Hget.
  - by apply Hparse.
  - unfold CompareDBMSVersion. specialize (Hparse srv d IH).
    destruct (m_versionMajor d <? 0)%Z; [|done].
    destruct (ParseDBMSVersion srv d) as [[] d1]; exact Hparse.
Qed.

(** C9. In every state a [DBUtil] object can reach, a parse attempt leaves
    the three components as one pass over the stored version string gives
    them, hence all from the same pass, or all unknown: an attempt that
    stops before the pass (no version string could be probed) finds them
    all unknown and leaves them so, and a pass that fails validation
    (returns false) leaves the major component unknown, with minor and
    point from that same pass and never from an earlier probe. *)
Theorem ParseDBMSVersion_components_consistent :
  forall (d : DBUtil),
    reachable d ->
    forall (srv : Server),
      let r := fst (ParseDBMSVersion srv d) in
      let d' := snd (ParseDBMSVersion srv d) in
      same_pass d'
      /\ (same_pass d' \/ all_unknown d')
      /\ (m_versionString d' = "" -> all_unknown d')
      /\ (r = false -> m_versionMajor d' = Unknown).
Proof.
  intros d Hr srv. cbv zeta.
  destruct (reachable_components _ (reach_ParseDBMSVersion srv d Hr)) as [Hinv Hempty].
  assert (Hsame : same_pass (snd (ParseDBMSVersion srv d))).
  { destruct Hinv as [Hu|Hs]; [|done].
    destruct (String.eqb_spec (m_versionString (snd (ParseDBMSVersion srv d))) "") as [He|Hne].
    - by apply all_unknown_empty.
    - revert Hne. rewrite ParseDBMSVersion_components.
      destruct (isEmpty (fst (GetDBMSVersion srv d))); [done|].
      intros _. by repeat split. }
  split_and!; [done|by left|done|].
  intros Hf.
  destruct Hsame as [HM _]. rewrite HM.
  apply ParseDBMSVersion_fails in Hf.
  assert (Hstr : digit_groups (m_versionString (snd (ParseDBMSVersion srv d))) =
                 digit_groups (fst (GetDBMSVersion srv d))).
  { rewrite ParseDBMSVersion_components.
    destruct (isEmpty (fst (GetDBMSVersion srv d))) eqn:He; [|done].
    apply String.eqb_eq in He. by rewrite He. }
  unfold component. rewrite Hstr.
  destruct Hf as [->|(g & rest & -> & Hgt)]; [done|].
  simpl. unfold component_of_group.
  destruct (Z.leb_spec (decimal_value g) INT_MAX); [lia|done].
Qed.

Lemma ParseDBMSVersion_components_consistent_witness :
  reachable DBUtil_new
  /\ all_unknown (snd (ParseDBMSVersion (mkServer "" None) DBUtil_new)).
Proof.
  split; [exact reach_new|].
  destruct (ParseDBMSVersion_components_consistent DBUtil_new reach_new (mkServer "" None))
    as (_ & _ & H & _).
  apply H. reflexivity.
Defined.

(** ** Empty store *)

Lemma length_append (s t : string) :
  String.length (s +:+ t) = (String.length s + String.length t)%nat.
Proof. induction s as [|c s IH]; [done|]. rewrite append_cons. simpl. by rewrite IH. Qed.

Lemma string_drop_append (s t : string) : string_drop (String.length s) (s +:+ t) = t.
Proof. induction s as [|c s IH]; [done|]. rewrite append_cons. simpl. exact IH. Qed.

Lemma substring_drop (k : nat) (s : string) :
  String.substring 0 k s +:+ string_drop k s = s.
Proof.
  revert s. induction k as [|k IH]; intros s.
  - by destruct s.
  - destruct s as [|c s]; [done|]. simpl. by rewrite append_cons, IH.
Qed.

(** [endsWith] holds of the strings that are some prefix followed by the
    suffix. *)
Lemma endsWith_spec (s suffix : string) :
  endsWith s suffix = true <-> exists prefix, s = prefix +:+ suffix.
Proof.
  unfold endsWith. split.
  - intros H. apply andb_true_iff in H as [_ H]. apply String.eqb_eq in H.
    set (k := (String.length s - String.length suffix)%nat) in *.
    exists (String.substring 0 k s). rewrite <- H. by rewrite substring_drop.
  - intros [prefix ->]. rewrite length_append. apply andb_true_iff. split.
    + apply Nat.leb_le. lia.
    + replace (String.length prefix + String.length suffix - String.length suffix)%nat
        with (String.length prefix) by lia.
      rewrite string_drop_append. apply String.eqb_refl.
Qed.

(** C6. [IsNewDatabase] answers true exactly for the empty table list and
    for a list of exactly one table whose name ends with the marker
    .`schemalock`; for every other list (two tables or more, or one table
    that is not the marker) it answers false. *)
Theorem IsNewDatabase_empty_or_schemalock :
  forall tables : list string,
    (IsNewDatabase tables = true <->
     tables = [] \/ exists t, tables = [t] /\ endsWith t ".`schemalock`" = true)
    /\ (IsNewDatabase tables = false <->
        (exists t, tables = [t] /\ endsWith t ".`schemalock`" = false)
        \/ (2 <= List.length tables)%nat)
    /\ (forall t, endsWith t ".`schemalock`" = true <->
                  exists prefix, t = prefix +:+ ".`schemalock`")
    /\ IsNewDatabase [] = true
    /\ IsNewDatabase ["`db`.`schemalock`"] = true
    /\ IsNewDatabase ["`db`.`settings`"] = false
    /\ IsNewDatabase ["`db`.`schemalock`"; "`db`.`settings`"] = false.
Proof.
  intros tables. split_and!; try reflexivity.
  - unfold IsNewDatabase. destruct tables as [|t [|t' rest]]; simpl.
    + split; [by left|done].
    + rewrite orb_false_r. split.
      * intros H. right. by exists t.
      * intros [?|(t0 & [= <-] & H)]; done.
    + split; [done|]. intros [?|(t0 & ? & _)]; done.
  - unfold IsNewDatabase. destruct tables as [|t [|t' rest]]; simpl.
    + split; [done|]. intros [(t0 & ? & _)|?]; [done|lia].
    + rewrite orb_false_r. split.
      * intros H. left. by exists t.
      * intros [(t0 & [= <-] & H)|?]; [done|lia].
    + split; [|done]. intros _. right. lia.
  - intros t. apply endsWith_spec.
Qed.

(** ** Backup in progress *)

(** The code and the specification agree everywhere but at exactly 600
    seconds after a start that is later than the recorded end. *)
Lemma IsBackupInProgress_agrees (now : Z) (start_time end_time : option Z) :
  (forall s e, start_time = Some s -> end_time = Some e ->
               (e < s)%Z -> (now - s)%Z <> 600%Z) ->
  IsBackupInProgress now start_time end_time = in_progress_spec now start_time end_time.
Proof.
  intros H. unfold IsBackupInProgress, in_progress_spec, secsTo.
  destruct start_time as [s|]; [|done]. destruct end_time as [e|].
  - specialize (H s e eq_refl eq_refl).
    destruct (Z.geb_spec e s) as [Hge|Hlt].
    + rewrite bool_decide_eq_true_2 by lia. done.
    + rewrite bool_decide_eq_false_2 by lia. specialize (H Hlt).
      destruct (Z.gtb_spec (now - s) 600).
      * rewrite bool_decide_eq_false_2 by lia. done.
      * rewrite bool_decide_eq_true_2 by lia. done.
  - destruct (Z.ltb_spec (now - s) 600).
    + rewrite bool_decide_eq_true_2 by lia. done.
    + rewrite bool_decide_eq_false_2 by lia. done.
Qed.

(** C2. With an end time before the start time and exactly 600 seconds
    gone since the start, [IsBackupInProgress] answers true, where the
    heuristic (in progress only under 600 seconds, as the branch without
    an end time has it) answers false: that branch tests [> 600] where the
    other tests [< 600]. *)
Theorem IsBackupInProgress_at_600_seconds :
  IsBackupInProgress 1600 (Some 1000%Z) (Some 999%Z) = true
  /\ in_progress_spec 1600 (Some 1000%Z) (Some 999%Z) = false
  /\ IsBackupInProgress 1600 (Some 1000%Z) None = false.
Proof. repeat split. Qed.

(** ** Backup *)

Ltac run_M :=
  cbv beta delta
    [mbind M_bind mret M_ret get_world emit GetSetting SaveSettingOnHost stage
     unlink run_system exec now_string CreateBackupFilename
     CreateTemporaryDBConf] in *;
  cbn beta iota zeta in *.

Lemma DoBackup_script_effects (env : Env) (backupScript filename : string) (w : World) :
  let p := createTempFile env (trace w) "/tmp/mythtv_db_backup_conf_XXXXXX" in
  let w' := snd (DoBackup_script env backupScript filename w) in
  settings w' = settings w
  /\ if fopen_w env (trace w) p then
       exists content command,
         trace w' =
         trace w ++ [EvCreateTemp p content;
                     EvSystem command
                       (myth_system env (trace w ++ [EvCreateTemp p content]) command);
                     EvUnlink p]
         /\ tmp_files w' = delete p (<[p := content]> (tmp_files w))
     else
       exists command,
         trace w' = trace w ++ [EvSystem command (myth_system env (trace w) command)]
         /\ tmp_files w' = tmp_files w.
Proof.
  cbv zeta. unfold DoBackup_script. run_M.
  destruct (negb (isEmpty (default "" (settings w !! "BackupDBScriptArgs"))));
    destruct (fopen_w env (trace w) _); cbn;
    repeat case_match; cbn; (split; [done|]);
    repeat eexists; rewrite <- ?app_assoc; reflexivity.
Qed.

Lemma DoBackup_effects (env : Env) (filename : string) (w : World) :
  let p := createTempFile env (trace w) "/tmp/mythtv_db_backup_conf_XXXXXX" in
  let r := fst (DoBackup env filename w) in
  let w' := snd (DoBackup env filename w) in
  settings w' = settings w
  /\ if fopen_w env (trace w) p then
       exists content command rest,
         let status := myth_system env (trace w ++ [EvCreateTemp p content]) command in
         trace w' =
         trace w ++ [EvCreateTemp p content; EvSystem command status; EvUnlink p] ++ rest
         /\ tmp_files w' = delete p (<[p := content]> (tmp_files w))
         /\ (forall e, e ∈ rest -> exists c s, e = EvSystem c s)
         /\ (status <> GENERIC_EXIT_OK -> r = (false, "__FAILED__") /\ rest = [])
         /\ (status = GENERIC_EXIT_OK -> fst r = true)
     else r = (false, filename) /\ w' = w.
Proof.
  cbv zeta. unfold DoBackup. run_M.
  destruct (fopen_w env (trace w) _); cbn; [|by destruct w].
  match goal with
  | |- context [Z.eqb ?s GENERIC_EXIT_OK] => destruct (Z.eqb_spec s GENERIC_EXIT_OK) as [Hs|Hs]
  end; cbn.
  - destruct (negb (isEmpty _)); cbn; [destruct (negb _)|]; cbn;
      (split; [done|]); eexists _, _, _; rewrite <- ?app_assoc;
      (split; [reflexivity|]); (split; [reflexivity|]); split_and!; try done.
    all: try (intros e He; apply list_elem_of_singleton in He as ->; by eexists _, _).
    all: try (intros e He; by apply elem_of_nil in He).
  - split; [done|]. eexists _, _, []. rewrite <- ?app_assoc.
    split; [reflexivity|]. split; [reflexivity|]. split_and!; try done.
    intros e He. by apply elem_of_nil in He.
Qed.

(** C7. When the platform has backups disabled, or the setting
    DisableAutomaticBackup is set, or the store is new, [BackupDB] returns
    at once, in that order of tests: Disabled for the first two, Empty_DB
    for the third, with an empty file name, and leaves the world as it was:
    no setting saved (so no start time), no file staged, no process run. *)
Theorem BackupDB_short_circuit :
  forall (env : Env) (filename : string) (w : World),
    USING_MINGW env = true
    \/ GetNumSetting env "DisableAutomaticBackup" 0 <> 0%Z
    \/ IsNewDatabase (GetTables env) = true ->
    BackupDB env filename w =
    ((if USING_MINGW env then kDB_Backup_Disabled
      else if negb (GetNumSetting env "DisableAutomaticBackup" 0 =? 0)%Z
           then kDB_Backup_Disabled
           else kDB_Backup_Empty_DB,
      ""), w)
    /\ settings (snd (BackupDB env filename w)) !! "BackupDBLastRunStart" =
       settings w !! "BackupDBLastRunStart"
    /\ tmp_files (snd (BackupDB env filename w)) = tmp_files w
    /\ trace (snd (BackupDB env filename w)) = trace w.
Proof.
  intros env filename w H.
  assert (Heq : BackupDB env filename w =
    ((if USING_MINGW env then kDB_Backup_Disabled
      else if negb (GetNumSetting env "DisableAutomaticBackup" 0 =? 0)%Z
           then kDB_Backup_Disabled
           else kDB_Backup_Empty_DB,
      ""), w)).
  { unfold BackupDB.
    destruct (USING_MINGW env); [done|].
    destruct (Z.eqb_spec (GetNumSetting env "DisableAutomaticBackup" 0) 0) as [Hz|Hnz];
      cbn [negb]; [|done].
    destruct (IsNewDatabase (GetTables env)); [done|].
    destruct H as [?|[?|?]]; done. }
  rewrite Heq. done.
Qed.

Lemma BackupDB_short_circuit_witness :
  BackupDB (mkEnv false (fun _ _ => 1%Z) [] "" (fun _ => true)
                  (mkDatabaseParams "" 0 "" "" "") "" (fun _ _ => "")
                  (fun _ _ => "") (fun _ _ => true) (fun _ _ => 0%Z)
                  (fun _ _ _ => []) true)
           "old" empty_world =
  ((kDB_Backup_Disabled, ""), empty_world).
Proof.
  refine (proj1 (BackupDB_short_circuit _ "old" empty_world _)).
  right. left. simpl. discriminate.
Defined.

Lemma bind_run {A B : Type} (m : M A) (k : A -> M B) (w : World) :
  (m ≫= k) w = k (fst (m w)) (snd (m w)).
Proof. unfold mbind, M_bind. by destruct (m w). Qed.

Lemma extends_ret {A : Type} (a : A) : extends (mret a).
Proof. intros w. exists []. by rewrite app_nil_r. Qed.

Lemma extends_bind {A B : Type} (m : M A) (k : A -> M B) :
  extends m -> (forall a, extends (k a)) -> extends (m ≫= k).
Proof.
  intros Hm Hk w. rewrite bind_run.
  destruct (Hm w) as [l1 H1]. destruct (Hk (fst (m w)) (snd (m w))) as [l2 H2].
  exists (l1 ++ l2). by rewrite H2, H1, app_assoc.
Qed.

Lemma extends_emit (e : Event) : extends (emit e).
Proof. intros w. by exists [e]. Qed.

Lemma extends_SaveSettingOnHost (key value : string) :
  extends (SaveSettingOnHost key value).
Proof. intros w. by eexists [_]. Qed.

Lemma extends_now_string (env : Env) (format : string) : extends (now_string env format).
Proof. intros w. exists []. by rewrite app_nil_r. Qed.

Lemma extends_DoBackup_script (env : Env) (backupScript filename : string) :
  extends (DoBackup_script env backupScript filename).
Proof.
  intros w. destruct (DoBackup_script_effects env backupScript filename w) as [_ H].
  cbv zeta in H. destruct (fopen_w env (trace w) _).
  - destruct H as (c & cmd & -> & _). eauto.
  - destruct H as (cmd & -> & _). eauto.
Qed.

Lemma extends_DoBackup (env : Env) (filename : string) : extends (DoBackup env filename).
Proof.
  intros w. destruct (DoBackup_effects env filename w) as [_ H].
  cbv zeta in H. destruct (fopen_w env (trace w) _).
  - destruct H as (c & cmd & rest & -> & _). eauto.
  - destruct H as [_ ->]. exists []. by rewrite app_nil_r.
Qed.

Create HintDb extends.

#[local] Hint Resolve extends_ret extends_emit extends_SaveSettingOnHost
  extends_now_string extends_DoBackup_script extends_DoBackup : extends.

(** Past the three tests the start time is the first thing recorded. *)
Lemma BackupDB_records_start (env : Env) (filename : string) (w : World) :
  USING_MINGW env = false ->
  GetNumSetting env "DisableAutomaticBackup" 0 = 0%Z ->
  IsNewDatabase (GetTables env) = false ->
  exists rest,
    trace (snd (BackupDB env filename w)) =
    trace w ++ EvSaveSetting "BackupDBLastRunStart"
                 (currentDateTime env (trace w) "yyyy-MM-dd hh:mm:ss") :: rest.
Proof.
  intros Hm Hd Hn. unfold BackupDB. rewrite Hm, Hd, Hn. cbn [Z.eqb negb].
  rewrite bind_run. cbn [GetSetting fst snd].
  rewrite bind_run. cbn [now_string fst snd].
  rewrite bind_run. cbn [SaveSettingOnHost fst snd].
  match goal with
  | |- exists rest, trace (snd (?m ?w1)) = _ =>
      assert (Hext : extends m); [|destruct (Hext w1) as [l Hl]]
  end.
  - repeat first
      [ solve [unfold exec; auto with extends]
      | match goal with
        | |- extends (_ ≫= _) => apply extends_bind; [|intros ?]
        | |- extends (let '(_, _) := ?a in _) => destruct a
        | |- extends (if ?b then _ else _) => destruct b
        end ].
  - exists l. rewrite Hl. cbn [trace]. by rewrite <- app_assoc.
Qed.

Lemma DoBackup_script_result (env : Env) (backupScript filename : string) (w : World) :
  fst (DoBackup_script env backupScript filename w) = (false, "__FAILED__")
  \/ fst (fst (DoBackup_script env backupScript filename w)) = true.
Proof.
  unfold DoBackup_script. run_M.
  destruct (negb (isEmpty (default "" (settings w !! "BackupDBScriptArgs"))));
    destruct (fopen_w env (trace w) _); cbn;
    repeat case_match; cbn; auto.
Qed.

Lemma DoBackup_result (env : Env) (filename : string) (w : World) :
  fst (DoBackup env filename w) = (false, filename)
  \/ fst (DoBackup env filename w) = (false, "__FAILED__")
  \/ fst (fst (DoBackup env filename w)) = true.
Proof.
  destruct (DoBackup_effects env filename w) as [_ H]. cbv zeta in H.
  destruct (fopen_w env (trace w) _).
  - destruct H as (content & command & rest & _ & _ & _ & Hfail & Hok).
    destruct (Z.eq_dec (myth_system env
      (trace w ++ [EvCreateTemp (createTempFile env (trace w)
                                   "/tmp/mythtv_db_backup_conf_XXXXXX") content])
      command) GENERIC_EXIT_OK) as [E|E].
    + right. right. by apply Hok.
    + right. left. by apply Hfail.
  - left. by destruct H.
Qed.

(** A failed backup names the sentinel, or nothing at all. *)
Lemma BackupDB_Failed_filename (env : Env) (filename name : string) (w : World) :
  fst (BackupDB env filename w) = (kDB_Backup_Failed, name) ->
  name = "__FAILED__" \/ name = "".
Proof.
  unfold BackupDB.
  destruct (USING_MINGW env); [done|].
  destruct (negb _); [done|].
  destruct (IsNewDatabase _); [done|].
  rewrite bind_run. cbn [GetSetting fst snd].
  rewrite bind_run. cbn [now_string fst snd].
  rewrite bind_run. cbn [SaveSettingOnHost fst snd].
  set (w1 := mkWorld _ _ _). set (script := if negb (QFile_exists env _) then "" else _).
  rewrite bind_run.
  assert (H1 : fst ((if negb (isEmpty script) then DoBackup_script env script ""
                     else mret (false, "")) w1) = (false, "__FAILED__")
               \/ fst ((if negb (isEmpty script) then DoBackup_script env script ""
                        else mret (false, "")) w1) = (false, "")
               \/ fst (fst ((if negb (isEmpty script) then DoBackup_script env script ""
                             else mret (false, "")) w1)) = true).
  { destruct (negb (isEmpty script)); [|by right; left].
    destruct (DoBackup_script_result env script "" w1); auto. }
  destruct ((if negb (isEmpty script) then DoBackup_script env script ""
             else mret (false, "")) w1) as [[r1 f1] w2]. cbn [fst snd] in *.
  rewrite bind_run.
  assert (H2 : fst ((if negb r1 then DoBackup env f1 else mret (r1, f1)) w2) = (false, "__FAILED__")
               \/ fst ((if negb r1 then DoBackup env f1 else mret (r1, f1)) w2) = (false, "")
               \/ fst (fst ((if negb r1 then DoBackup env f1 else mret (r1, f1)) w2)) = true).
  { destruct r1; cbn [negb]; [by right; right|].
    destruct (DoBackup_result env f1 w2) as [E|[E|E]]; auto.
    destruct H1 as [[= ->]|[[= ->]|[=]]]; auto. }
  destruct ((if negb r1 then DoBackup env f1 else mret (r1, f1)) w2) as [[r2 f2] w3].
  cbn [fst snd] in *.
  rewrite bind_run. cbn [now_string fst snd].
  rewrite bind_run. cbn [SaveSettingOnHost fst snd].
  rewrite bind_run.
  destruct r2; [done|]. intros [= <-].
  destruct H2 as [[= ->]|[[= ->]|[=]]]; auto.
Qed.

(** C5. With no backup script and a temporary file that cannot be
    created, [BackupDB] returns Failed with an empty file name, not the
    sentinel: the internal [DoBackup] returns before it sets the name. When
    instead the processes run and exit non-zero, Failed comes with the
    sentinel. *)
Theorem BackupDB_Failed_with_empty_name :
  fst (BackupDB env_no_staging "" empty_world) = (kDB_Backup_Failed, "")
  /\ fst (DoBackup env_no_staging "" empty_world) = (false, "")
  /\ fst (BackupDB env_processes_fail "" empty_world) = (kDB_Backup_Failed, "__FAILED__").
Proof. repeat split; vm_compute; reflexivity. Qed.

Lemma DoBackup_dump_failure (env : Env) (filename : string) (w : World) :
  fopen_w env (trace w) (temp_name env w) = true ->
  (forall history command, myth_system env history command <> GENERIC_EXIT_OK) ->
  fst (DoBackup env filename w) = (false, "__FAILED__").
Proof.
  intros Hopen Hfail. destruct (DoBackup_effects env filename w) as [_ H].
  cbv zeta in H. unfold temp_name in Hopen. rewrite Hopen in H.
  destruct H as (content & command & rest & _ & _ & _ & Hf & _).
  by apply Hf.
Qed.

(** C8. On the script path and on the internal path alike, a credential
    file that was staged (the temporary file could be opened) is unlinked
    right after the external process returns, whatever status the process
    returns: the history of the call is the staging, the process with its
    status, the unlinking of the same path, and on the internal path at
    most the compression afterwards; the file is gone at the end. *)
Theorem staged_credentials_unlinked :
  forall (env : Env) (w : World),
    fopen_w env (trace w) (temp_name env w) = true ->
    let p := temp_name env w in
    (forall backupScript filename,
       let w' := snd (DoBackup_script env backupScript filename w) in
       exists content command,
         trace w' =
         trace w ++ [EvCreateTemp p content;
                     EvSystem command
                       (myth_system env (trace w ++ [EvCreateTemp p content]) command);
                     EvUnlink p]
         /\ tmp_files w' !! p = None)
    /\ (forall filename,
          let w' := snd (DoBackup env filename w) in
          exists content command rest,
            trace w' =
            trace w ++ [EvCreateTemp p content;
                        EvSystem command
                          (myth_system env (trace w ++ [EvCreateTemp p content]) command);
                        EvUnlink p] ++ rest
            /\ (forall e, e ∈ rest -> exists c s, e = EvSystem c s)
            /\ tmp_files w' !! p = None).
Proof.
  intros env w Hopen. unfold temp_name in *. cbv zeta. split.
  - intros backupScript filename.
    destruct (DoBackup_script_effects env backupScript filename w) as [_ H].
    cbv zeta in H. rewrite Hopen in H. destruct H as (content & command & Ht & Hf).
    exists content, command. split; [exact Ht|].
    rewrite Hf. apply lookup_delete_eq.
  - intros filename.
    destruct (DoBackup_effects env filename w) as [_ H].
    cbv zeta in H. rewrite Hopen in H.
    destruct H as (content & command & rest & Ht & Hf & Hrest & _).
    exists content, command, rest. split; [exact Ht|]. split; [exact Hrest|].
    rewrite Hf. apply lookup_delete_eq.
Qed.

Lemma staged_credentials_unlinked_witness :
  fopen_w env_processes_fail (trace empty_world) (temp_name env_processes_fail empty_world) = true
  /\ tmp_files (snd (DoBackup_script env_processes_fail "/usr/share/mythtv/mythconverg_backup.pl"
                       "" empty_world))
     !! temp_name env_processes_fail empty_world = None.
Proof.
  split; [reflexivity|].
  destruct (staged_credentials_unlinked env_processes_fail empty_world eq_refl) as [H _].
  destruct (H "/usr/share/mythtv/mythconverg_backup.pl" "") as (content & command & _ & Hgone).
  exact Hgone.
Defined.

Lemma dom_delete_insert_subseteq (p content : string) (files : gmap string string) :
  dom (delete p (<[p := content]> files)) ⊆ dom files.
Proof.
  rewrite dom_delete, dom_insert. intros x Hx.
  apply elem_of_difference in Hx as [Hx Hne].
  apply elem_of_union in Hx as [Hx|Hx]; done.
Qed.

Lemma cleans_up_ret {A : Type} (a : A) : cleans_up (mret a).
Proof. intros w. done. Qed.

Lemma cleans_up_bind {A B : Type} (m : M A) (k : A -> M B) :
  cleans_up m -> (forall a, cleans_up (k a)) -> cleans_up (m ≫= k).
Proof.
  intros Hm Hk w. rewrite bind_run.
  etrans; [apply Hk|apply Hm].
Qed.

Lemma cleans_up_emit (e : Event) : cleans_up (emit e).
Proof. intros w. done. Qed.

Lemma cleans_up_SaveSettingOnHost (key value : string) :
  cleans_up (SaveSettingOnHost key value).
Proof. intros w. done. Qed.

Lemma cleans_up_now_string (env : Env) (format : string) :
  cleans_up (now_string env format).
Proof. intros w. done. Qed.

Lemma cleans_up_DoBackup_script (env : Env) (backupScript filename : string) :
  cleans_up (DoBackup_script env backupScript filename).
Proof.
  intros w. destruct (DoBackup_script_effects env backupScript filename w) as [_ H].
  cbv zeta in H. destruct (fopen_w env (trace w) _).
  - destruct H as (c & cmd & _ & ->). apply dom_delete_insert_subseteq.
  - destruct H as (cmd & _ & ->). done.
Qed.

Lemma cleans_up_DoBackup (env : Env) (filename : string) :
  cleans_up (DoBackup env filename).
Proof.
  intros w. destruct (DoBackup_effects env filename w) as [_ H].
  cbv zeta in H. destruct (fopen_w env (trace w) _).
  - destruct H as (c & cmd & rest & _ & -> & _). apply dom_delete_insert_subseteq.
  - destruct H as [_ ->]. done.
Qed.

Create HintDb cleans_up.

#[local] Hint Resolve cleans_up_ret cleans_up_emit cleans_up_SaveSettingOnHost
  cleans_up_now_string cleans_up_DoBackup_script cleans_up_DoBackup : cleans_up.

(** A whole backup run leaves no staged file behind. *)
Lemma BackupDB_cleans_up (env : Env) (filename : string) :
  cleans_up (BackupDB env filename).
Proof.
  unfold BackupDB, GetSetting.
  repeat first
    [ solve [unfold exec; auto with cleans_up]
    | match goal with
      | |- cleans_up (_ ≫= _) => apply cleans_up_bind; [|intros ?]
      | |- cleans_up (let '(_, _) := ?a in _) => destruct a
      | |- cleans_up (if ?b then _ else _) => destruct b
      | |- cleans_up (fun w => (_, w)) => intros ?; done
      end ].
Qed.
